(** * elodie/localstorage.py: the [Db] cache of checksums, perceptual hashes
    and named locations, embedded as pure functions over an explicit
    file system.

    Conventions of the embedding.
    - A Python method that returns [None] on a miss is a function into
      [option]; a method that can raise is a function into [result].
    - [self] is a record [Db]; the files under the application directory
      are a finite map from path to bytes, threaded explicitly.
    - Python floats are IEEE 754 binary64 numbers: [PrimFloat.float].
    - The modules the source imports but which are not part of it are
      interfaces: [elodie.constants] is the record [constants.t], the [json]
      and [pickle] codecs are the record [codecs.t] with the contract the
      libraries document, [math.cos] is a function parameter. *)

From Stdlib Require Import Floats ZArith NArith Lia Bool.
From Stdlib Require Import Strings.Byte Strings.Ascii Strings.String.
From stdpp Require Import gmap strings list.
From Equations Require Import Equations.

Local Open Scope Z_scope.

(** ** Outcomes of a call *)

Inductive exn : Type :=
| FileNotFoundError
| UnpicklingError
| UnboundLocalError.

Inductive result (A : Type) : Type :=
| Return (a : A)
| Raise (e : exn).
Arguments Return {A} a.
Arguments Raise {A} e.

(** ** The file system: directories and regular files *)

Record FS : Type := mkFS {
  dirs : gset string;
  files : gmap string (list byte)
}.

Module os.
Module path.
Definition isfile (p : string) (fs : FS) : bool :=
  bool_decide (is_Some (files fs !! p)).
Definition exists_ (p : string) (fs : FS) : bool :=
  bool_decide (p ∈ dirs fs) || isfile p fs.
Definition getsize (p : string) (fs : FS) : nat :=
  length (default [] (files fs !! p)).
End path.
Definition makedirs (p : string) (fs : FS) : FS :=
  mkFS ({[ p ]} ∪ dirs fs) (files fs).
End os.

(** [with open(p, 'a'): os.utime(p, None)]: the file is created empty when
    it is missing and its content is kept otherwise (timestamps are not
    part of the model). *)
Definition open_a (p : string) (fs : FS) : FS :=
  match files fs !! p with
  | Some _ => fs
  | None => mkFS (dirs fs) (<[p := []]> (files fs))
  end.

(** [with open(p, 'w') as f: f.write(c)]: the content is replaced. *)
Definition open_w (p : string) (c : list byte) (fs : FS) : FS :=
  mkFS (dirs fs) (<[p := c]> (files fs)).

(** The whole content of a file that is known to exist. *)
Definition read_all (p : string) (fs : FS) : list byte :=
  default [] (files fs !! p).

(** [shutil.copyfile(src, dst)] for an existing [src]. *)
Definition copyfile (src dst : string) (fs : FS) : FS :=
  open_w dst (read_all src fs) fs.

(** ** elodie.constants *)

Module constants.
Record t : Type := mk {
  application_directory : string;
  hash_db : string;
  location_db : string;
  phash_db : string
}.
End constants.

(** ** The data model *)

(** An [imagehash.ImageHash]: a square array of bits. *)
Definition ImageHash : Type := list (list bool).

(** One entry of the location list: [{'lat': .., 'long': .., 'name': ..}]. *)
Record LocationRecord : Type := mkLocation {
  lat : float;
  long : float;
  name : string
}.

Record Db : Type := mkDb {
  hash_db : gmap string string;
  location_db : list LocationRecord;
  phash_db : gmap string ImageHash
}.

(** ** json and pickle *)

(** [load] returns [None] where the library raises ([ValueError] for
    [json.load], an unpickling error for [pickle.load]). *)
Module codecs.
Record t : Type := mk {
  json_dump_hash : gmap string string → list byte;
  json_load_hash : list byte → option (gmap string string);
  json_dump_location : list LocationRecord → list byte;
  json_load_location : list byte → option (list LocationRecord);
  pickle_dump : gmap string ImageHash → list byte;
  pickle_load : list byte → option (gmap string ImageHash)
}.

(** What the libraries promise: an empty document is not JSON, and what
    was dumped loads back. *)
Record lawful (c : t) : Prop := mk_lawful {
  json_hash_empty : json_load_hash c [] = None;
  json_location_empty : json_load_location c [] = None;
  json_hash_roundtrip : ∀ m, json_load_hash c (json_dump_hash c m) = Some m;
  json_location_roundtrip :
    ∀ l, json_load_location c (json_dump_location c l) = Some l;
  pickle_roundtrip : ∀ m, pickle_load c (pickle_dump c m) = Some m
}.
End codecs.

Section Store.

Context (cfg : constants.t) (cd : codecs.t).

(** ** Db.__init__ *)

Definition Db_init (fs : FS) : FS * result Db :=
  let fs :=
    if negb (os.path.exists_ (constants.application_directory cfg) fs)
    then os.makedirs (constants.application_directory cfg) fs else fs in
  let fs :=
    if negb (os.path.isfile (constants.hash_db cfg) fs)
    then open_a (constants.hash_db cfg) fs else fs in
  let self_hash_db : gmap string string := ∅ in
  let self_hash_db :=
    match codecs.json_load_hash cd (read_all (constants.hash_db cfg) fs) with
    | Some v => v
    | None => self_hash_db
    end in
  let fs :=
    if negb (os.path.isfile (constants.location_db cfg) fs)
    then open_a (constants.location_db cfg) fs else fs in
  let self_location_db : list LocationRecord := [] in
  let self_location_db :=
    match codecs.json_load_location cd
            (read_all (constants.location_db cfg) fs) with
    | Some v => v
    | None => self_location_db
    end in
  let fs :=
    if negb (os.path.isfile (constants.phash_db cfg) fs)
    then open_a (constants.phash_db cfg) fs else fs in
  let self_phash_db : gmap string ImageHash := ∅ in
  if negb (Nat.eqb (os.path.getsize (constants.phash_db cfg) fs) 0)
  then
    match codecs.pickle_load cd (read_all (constants.phash_db cfg) fs) with
    | Some v => (fs, Return (mkDb self_hash_db self_location_db v))
    | None => (fs, Raise UnpicklingError)
    end
  else (fs, Return (mkDb self_hash_db self_location_db self_phash_db)).

(** ** Writing the collections back *)

Definition update_hash_db (self : Db) (fs : FS) : FS :=
  let fs := open_w (constants.hash_db cfg)
                   (codecs.json_dump_hash cd (hash_db self)) fs in
  open_w (constants.phash_db cfg) (codecs.pickle_dump cd (phash_db self)) fs.

Definition update_location_db (self : Db) (fs : FS) : FS :=
  open_w (constants.location_db cfg)
         (codecs.json_dump_location cd (location_db self)) fs.

(** ** Mutators *)

Definition add_phash (key : string) (value : ImageHash) (write : bool)
    (self : Db) (fs : FS) : Db * FS :=
  let self := mkDb (hash_db self) (location_db self)
                   (<[key := value]> (phash_db self)) in
  if write then (self, update_hash_db self fs) else (self, fs).

Definition add_hash (key value : string) (write : bool)
    (self : Db) (fs : FS) : Db * FS :=
  let self := mkDb (<[key := value]> (hash_db self)) (location_db self)
                   (phash_db self) in
  if write then (self, update_hash_db self fs) else (self, fs).

Definition add_location (latitude longitude : float) (place : string)
    (write : bool) (self : Db) (fs : FS) : Db * FS :=
  let data := mkLocation latitude longitude place in
  let self := mkDb (hash_db self) (location_db self ++ [data])
                   (phash_db self) in
  if write then (self, update_location_db self fs) else (self, fs).

Definition reset_hash_db (self : Db) (fs : FS) : Db * FS :=
  (mkDb ∅ (location_db self) ∅, fs).

End Store.

(** ** Lookups *)

Definition check_hash (key : string) (self : Db) : bool :=
  bool_decide (key ∈ dom (hash_db self)).

Definition check_phash (key : string) (self : Db) : bool :=
  bool_decide (key ∈ dom (phash_db self)).

Definition get_hash (key : string) (self : Db) : option string :=
  if check_hash key self then hash_db self !! key else None.

Definition get_phash (key : string) (self : Db) : option ImageHash :=
  if check_phash key self then phash_db self !! key else None.

(** The generator [all]: the pairs it yields, as a list. *)
Definition all (self : Db) : list (string * string) :=
  map_to_list (hash_db self).

Fixpoint get_location_coordinates_loop (l : list LocationRecord)
    (name' : string) : option (float * float) :=
  match l with
  | [] => None
  | data :: l' =>
      if bool_decide (name data = name') then Some (lat data, long data)
      else get_location_coordinates_loop l' name'
  end.

Definition get_location_coordinates (name' : string) (self : Db)
    : option (float * float) :=
  get_location_coordinates_loop (location_db self) name'.

(** ** math, sys *)

Module math.
(** CPython: [radians(x) = x * (Py_MATH_PI / 180.0)]. *)
Definition pi : float := 0x1.921fb54442d18p+1%float.
Definition degToRad : float := (pi / 180)%float.
Definition radians (x : float) : float := (x * degToRad)%float.
End math.

Module sys.
Definition maxsize : Z := 2 ^ 63 - 1.
(** [d < sys.maxsize] compares a float with an int exactly. No binary64
    number is at least [2^63 - 1] and below [2^63], so the test is the
    float comparison with [2^63]. *)
Definition maxsize_float : float := 0x1p63%float.
End sys.

(** ** Db.get_location_name *)

Section Location.

(** [math.cos], the platform's libm function. *)
Variable cos : float → float.

(** The distance the loop body computes for one record. *)
Definition distance (latitude longitude : float) (data : LocationRecord)
    : float :=
  let lon1 := math.radians longitude in
  let lat1 := math.radians latitude in
  let lon2 := math.radians (long data) in
  let lat2 := math.radians (lat data) in
  let r := 6371000%float in
  let x := ((lon2 - lon1) * cos (0.5 * (lat2 + lat1)))%float in
  let y := (lat2 - lat1)%float in
  (r * sqrt (x * x + y * y))%float.

(** The [for] loop, with its two variables [last_d] and [name]. *)
Fixpoint get_location_name_loop (latitude longitude threshold_m : float)
    (l : list LocationRecord) (last_d : float) (name' : option string)
    : option string :=
  match l with
  | [] => name'
  | data :: l' =>
      let d := distance latitude longitude data in
      let name' :=
        if ((d <=? threshold_m) && (d <? last_d))%float
        then Some (name data) else name' in
      let last_d := d in
      get_location_name_loop latitude longitude threshold_m l' last_d name'
  end.

Definition get_location_name (latitude longitude threshold_m : float)
    (self : Db) : option string :=
  get_location_name_loop latitude longitude threshold_m (location_db self)
    sys.maxsize_float None.

End Location.

(** ** time.strftime *)

Record struct_time : Type := mkTime {
  tm_year : nat;
  tm_mon : nat;
  tm_mday : nat;
  tm_hour : nat;
  tm_min : nat;
  tm_sec : nat
}.

Definition digit (n : nat) : ascii :=
  ascii_of_nat (48 + n mod 10).

Definition dec2 (n : nat) : string :=
  String (digit (n / 10)) (String (digit n) EmptyString).

Definition dec4 (n : nat) : string :=
  String (digit (n / 1000)) (String (digit (n / 100)) (dec2 n)).

(** [strftime('%Y-%m-%d_%H-%M-%S')] of a local time whose year has four
    digits. *)
Definition strftime (now : struct_time) : string :=
  dec4 (tm_year now) +:+ "-" +:+ dec2 (tm_mon now) +:+ "-" +:+
  dec2 (tm_mday now) +:+ "_" +:+ dec2 (tm_hour now) +:+ "-" +:+
  dec2 (tm_min now) +:+ "-" +:+ dec2 (tm_sec now).

(** ** Db.backup_hash_db *)

Section Backup.

Context (cfg : constants.t).

(** [now1] and [now2] are the local times read by the first and by the
    second call of [strftime]. The local [hash_backup_file_name] is bound
    only in the first branch. *)
Definition backup_hash_db (now1 now2 : struct_time) (fs : FS)
    : FS * result string :=
  let '(fs, hash_backup_file_name) :=
    if os.path.isfile (constants.hash_db cfg) fs then
      let mask := strftime now1 in
      let hash_backup_file_name := constants.hash_db cfg +:+ "-" +:+ mask in
      (copyfile (constants.hash_db cfg) hash_backup_file_name fs,
       Some hash_backup_file_name)
    else (fs, None) in
  let fs :=
    if os.path.isfile (constants.phash_db cfg) fs then
      let mask := strftime now2 in
      let phash_backup_file_name := constants.phash_db cfg +:+ "-" +:+ mask in
      copyfile (constants.phash_db cfg) phash_backup_file_name fs
    else fs in
  match hash_backup_file_name with
  | Some n => (fs, Return n)
  | None => (fs, Raise UnboundLocalError)
  end.

End Backup.

(** ** hashlib.sha256 *)

(** The hash object is modelled by what it denotes: the bytes fed so far.
    [hexdigest] is the SHA-256 digest (FIPS 180-4) of those bytes, in
    lowercase hexadecimal. *)
Module hashlib.

Local Open Scope N_scope.




















End hashlib.

(** ** Db.checksum *)




Definition bytes_of_string (s : string) : list byte :=
  map byte_of_ascii (list_ascii_of_string s).

(** ** Concrete instances, to run the model *)

(** A polynomial stand-in for libm's cosine, exact at zero, to run the
    location lookup on concrete records. *)
Definition cos_series (x : float) : float :=
  (let x2 := x * x in
   1 - x2 / 2 * (1 - x2 / 12 * (1 - x2 / 30 * (1 - x2 / 56))))%float.

(** A codec for any countable type: a brace, then the binary digits of
    the code of the value, lowest first, as the characters 0 and 1.
    Everything else fails to load. *)
Module plain.

Fixpoint bytes_of_pos (p : positive) : list byte :=
  match p with
  | xH => []
  | xO p' => "0"%byte :: bytes_of_pos p'
  | xI p' => "1"%byte :: bytes_of_pos p'
  end.

Fixpoint pos_of_bytes (l : list byte) : option positive :=
  match l with
  | [] => Some xH
  | b :: l' =>
      match pos_of_bytes l' with
      | Some p =>
          if Byte.eqb b "0" then Some (xO p)
          else if Byte.eqb b "1" then Some (xI p)
          else None
      | None => None
      end
  end.

Definition dump `{Countable A} (x : A) : list byte :=
  "{"%byte :: bytes_of_pos (encode x).

Definition load `{Countable A} (l : list byte) : option A :=
  match l with
  | b :: l' =>
      if Byte.eqb b "{" then pos_of_bytes l' ≫= decode else None
  | [] => None
  end.

Definition sum_of_spec_float (x : spec_float)
    : bool + bool + unit + bool * positive * Z :=
  match x with
  | S754_zero s => inl (inl (inl s))
  | S754_infinity s => inl (inl (inr s))
  | S754_nan => inl (inr tt)
  | S754_finite s m e => inr (s, m, e)
  end.

Definition spec_float_of_sum (x : bool + bool + unit + bool * positive * Z)
    : spec_float :=
  match x with
  | inl (inl (inl s)) => S754_zero s
  | inl (inl (inr s)) => S754_infinity s
  | inl (inr tt) => S754_nan
  | inr (s, m, e) => S754_finite s m e
  end.

#[export] Instance spec_float_eq_dec : EqDecision spec_float.
Proof. solve_decision. Defined.

#[export] Instance spec_float_countable : Countable spec_float.
Proof.
  refine (inj_countable' sum_of_spec_float spec_float_of_sum _).
  by intros [].
Defined.

#[export] Instance float_eq_dec : EqDecision float.
Proof.
  intros x y. destruct (decide (Prim2SF x = Prim2SF y)) as [E|N].
  - left. by apply Prim2SF_inj.
  - right. by intros ->.
Defined.

#[export] Instance float_countable : Countable float.
Proof. exact (inj_countable' Prim2SF SF2Prim SF2Prim_Prim2SF). Defined.

#[export] Instance LocationRecord_eq_dec : EqDecision LocationRecord.
Proof. solve_decision. Defined.

#[export] Instance LocationRecord_countable : Countable LocationRecord.
Proof.
  refine (inj_countable' (λ d, (lat d, long d, name d))
            (λ t, mkLocation t.1.1 t.1.2 t.2) _).
  by intros [].
Defined.

Definition codec : codecs.t :=
  codecs.mk dump load dump load dump load.

End plain.

Definition cfg0 : constants.t :=
  constants.mk "/home/u/.elodie" "/home/u/.elodie/hash.json"
    "/home/u/.elodie/location.json" "/home/u/.elodie/phash.pickle".

Definition db_empty : Db := mkDb ∅ [] ∅.
Definition fs_empty : FS := mkFS ∅ ∅.



(** Three places on the equator: A at the query point, C about 1112 m and
    B about 111 m east of it. *)
Definition place_A : LocationRecord := mkLocation 0 0 "A".
Definition place_B : LocationRecord := mkLocation 0 0x1.0624dd2f1a9fcp-10 "B".
Definition place_C : LocationRecord := mkLocation 0 0x1.47ae147ae147bp-7 "C".
Definition db_ACB : Db := mkDb ∅ [place_A; place_C; place_B] ∅.
Definition db_AB : Db := mkDb ∅ [place_A; place_B] ∅.


(** A store directory with both hash files, one with the perceptual-hash
    file only, and a local time. *)
Definition fs_both : FS :=
  mkFS {[ constants.application_directory cfg0 ]}
       {[ constants.hash_db cfg0 := bytes_of_string "{}";
          constants.phash_db cfg0 := bytes_of_string "pickled" ]}.

Definition fs_phash_only : FS :=
  mkFS {[ constants.application_directory cfg0 ]}
       {[ constants.phash_db cfg0 := bytes_of_string "pickled" ]}.

Definition fs_hash_only : FS :=
  mkFS {[ constants.application_directory cfg0 ]}
       {[ constants.hash_db cfg0 := bytes_of_string "{}" ]}.

Definition noon : struct_time := mkTime 2024 2 29 12 0 7.

(** ** Vocabulary of the statements about the location scan *)



(** ** Vocabulary of the statements about the files *)



(** A store with one entry in each collection. *)
Definition db_sample : Db :=
  mkDb {[ "abc"%string := "path1"%string ]} [place_A]
       {[ "abc"%string := [[true; false]; [false; true]] ]}.

(** * Properties *)

(** ** Float comparisons *)

Lemma SFcompare_antisym (x y : spec_float) :
  SFcompare y x = CompOpp <$> SFcompare x y.
Proof.
  destruct x as [sx|sx| |sx mx ex], y as [sy|sy| |sy my ey]; simpl;
    try reflexivity;
    try (destruct sx; reflexivity); try (destruct sy; reflexivity);
    try (destruct sx, sy; reflexivity).
  destruct sx, sy; try reflexivity; f_equal;
    rewrite (Z.compare_antisym ex ey);
    destruct (ex ?= ey)%Z eqn:He; simpl; try reflexivity;
    rewrite !Pos.compare_cont_spec; simpl;
    rewrite (Pos.compare_antisym mx my);
    destruct (mx ?= my)%positive; reflexivity.
Qed.

Lemma ltb_leb_false (x y : float) :
  (x <? y)%float = true → (y <=? x)%float = false.
Proof.
  rewrite ltb_spec, leb_spec. unfold SFltb, SFleb.
  rewrite (SFcompare_antisym (Prim2SF x) (Prim2SF y)).
  destruct (SFcompare (Prim2SF x) (Prim2SF y)) as [[]|]; simpl; congruence.
Qed.

(** ** The two maps *)

Lemma get_hash_lookup (key : string) (self : Db) :
  get_hash key self = hash_db self !! key.
Proof.
  unfold get_hash, check_hash. case_bool_decide as H; [reflexivity|].
  symmetry. by apply not_elem_of_dom.
Qed.

Lemma get_phash_lookup (key : string) (self : Db) :
  get_phash key self = phash_db self !! key.
Proof.
  unfold get_phash, check_phash. case_bool_decide as H; [reflexivity|].
  symmetry. by apply not_elem_of_dom.
Qed.

Lemma add_hash_self cfg cd key value write self fs :
  (add_hash cfg cd key value write self fs).1
  = mkDb (<[key := value]> (hash_db self)) (location_db self) (phash_db self).
Proof. unfold add_hash. by destruct write. Qed.

Lemma add_phash_self cfg cd key value write self fs :
  (add_phash cfg cd key value write self fs).1
  = mkDb (hash_db self) (location_db self) (<[key := value]> (phash_db self)).
Proof. unfold add_phash. by destruct write. Qed.

(** C5: the second of two writes under one key is the one read back, for
    checksums and for perceptual hashes, whatever the [write] flags. *)
Theorem add_hash_last_write_wins cfg cd (k v1 v2 : string)
    (p1 p2 : ImageHash) (w1 w2 : bool) (self : Db) (fs : FS) :
  (let '(self1, fs1) := add_hash cfg cd k v1 w1 self fs in
   let '(self2, fs2) := add_hash cfg cd k v2 w2 self1 fs1 in
   get_hash k self2 = Some v2) ∧
  (let '(self1, fs1) := add_phash cfg cd k p1 w1 self fs in
   let '(self2, fs2) := add_phash cfg cd k p2 w2 self1 fs1 in
   get_phash k self2 = Some p2).
Proof.
  split.
  - destruct (add_hash cfg cd k v1 w1 self fs) as [self1 fs1].
    pose proof (add_hash_self cfg cd k v2 w2 self1 fs1) as E.
    destruct (add_hash cfg cd k v2 w2 self1 fs1) as [self2 fs2].
    simpl in E. subst self2. rewrite get_hash_lookup. simpl.
    apply lookup_insert_eq.
  - destruct (add_phash cfg cd k p1 w1 self fs) as [self1 fs1].
    pose proof (add_phash_self cfg cd k p2 w2 self1 fs1) as E.
    destruct (add_phash cfg cd k p2 w2 self1 fs1) as [self2 fs2].
    simpl in E. subst self2. rewrite get_phash_lookup. simpl.
    apply lookup_insert_eq.
Qed.

(** C6: [reset_hash_db] empties the checksum map and the perceptual-hash
    map, so that [all] yields nothing and no key is present, keeps the
    location list and leaves every file as it was. *)
Theorem reset_hash_db_clears (self : Db) (fs : FS) :
  let '(self', fs') := reset_hash_db self fs in
  hash_db self' = ∅ ∧ phash_db self' = ∅ ∧
  all self' = [] ∧
  (∀ key, check_hash key self' = false ∧ check_phash key self' = false) ∧
  location_db self' = location_db self ∧
  fs' = fs.
Proof.
  simpl. repeat split; try reflexivity.
Qed.

(** ** The location list *)

Lemma get_location_coordinates_loop_spec (l : list LocationRecord)
    (n : string) :
  match get_location_coordinates_loop l n with
  | Some c =>
      ∃ l1 data l2, l = l1 ++ data :: l2 ∧
        Forall (λ d, name d ≠ n) l1 ∧ name data = n ∧
        c = (lat data, long data)
  | None => Forall (λ d, name d ≠ n) l
  end.
Proof.
  induction l as [|data l IH]; simpl.
  - constructor.
  - case_bool_decide as Hn.
    + exists [], data, l. repeat split; [constructor | exact Hn].
    + destruct (get_location_coordinates_loop l n) as [c|].
      * destruct IH as (l1 & data' & l2 & -> & Hl1 & Hd & ->).
        exists (data :: l1), data', l2. repeat split; try assumption.
        by constructor.
      * by constructor.
Qed.

Lemma get_location_coordinates_loop_app (l1 l2 : list LocationRecord)
    (n : string) :
  Forall (λ d, name d ≠ n) l1 →
  get_location_coordinates_loop (l1 ++ l2) n
  = get_location_coordinates_loop l2 n.
Proof.
  induction 1 as [|d l1 Hd _ IH]; simpl; [reflexivity|].
  by rewrite bool_decide_eq_false_2.
Qed.

Lemma add_location_self cfg cd la lo place write self fs :
  (add_location cfg cd la lo place write self fs).1
  = mkDb (hash_db self) (location_db self ++ [mkLocation la lo place])
         (phash_db self).
Proof. unfold add_location. by destruct write. Qed.

(** C8: [get_location_coordinates] returns the coordinates of the first
    record, in list order, whose name is the queried one, and [None] when
    no record has that name; after [add_location 12.5 (-7.25) "A"] on a
    store that held no record named "A" it returns [(12.5, -7.25)]. *)
Theorem get_location_coordinates_first (n : string) (self : Db) :
  match get_location_coordinates n self with
  | Some c =>
      ∃ l1 data l2, location_db self = l1 ++ data :: l2 ∧
        Forall (λ d, name d ≠ n) l1 ∧ name data = n ∧
        c = (lat data, long data)
  | None => Forall (λ d, name d ≠ n) (location_db self)
  end ∧
  ∀ cfg cd write fs,
    Forall (λ d, name d ≠ "A"%string) (location_db self) →
    get_location_coordinates "A"
      (add_location cfg cd 12.5 (-7.25) "A" write self fs).1
    = Some (12.5%float, (-7.25)%float).
Proof.
  split.
  - apply get_location_coordinates_loop_spec.
  - intros cfg cd write fs Hno. rewrite add_location_self.
    unfold get_location_coordinates. simpl.
    by rewrite get_location_coordinates_loop_app.
Qed.

(** ** Misses *)

Lemma get_location_name_loop_none cos la lo t (l : list LocationRecord)
    (last_d : float) :
  Forall (λ data, (t <? distance cos la lo data)%float = true) l →
  get_location_name_loop cos la lo t l last_d None = None.
Proof.
  intros H. revert last_d.
  induction H as [|data l Hd _ IH]; intros last_d; simpl; [reflexivity|].
  by rewrite (ltb_leb_false _ _ Hd).
Qed.

(** C7: a lookup that finds nothing returns [None]: [get_hash] and
    [get_phash] for a key their map does not hold,
    [get_location_coordinates] for a name no record has, and
    [get_location_name] when the threshold is below the distance of
    every record, the empty list included. *)
Theorem lookup_miss_returns_None (self : Db) :
  (∀ key, key ∉ dom (hash_db self) → get_hash key self = None) ∧
  (∀ key, key ∉ dom (phash_db self) → get_phash key self = None) ∧
  (∀ n, Forall (λ data, name data ≠ n) (location_db self) →
        get_location_coordinates n self = None) ∧
  (∀ cos la lo t,
     Forall (λ data, (t <? distance cos la lo data)%float = true)
            (location_db self) →
     get_location_name cos la lo t self = None) ∧
  (∀ cos la lo t, location_db self = [] →
     get_location_name cos la lo t self = None).
Proof.
  repeat split.
  - intros key H. rewrite get_hash_lookup. by apply not_elem_of_dom.
  - intros key H. rewrite get_phash_lookup. by apply not_elem_of_dom.
  - intros n H. unfold get_location_coordinates.
    pose proof (get_location_coordinates_loop_spec (location_db self) n) as S.
    destruct (get_location_coordinates_loop (location_db self) n) as [c|];
      [|reflexivity].
    destruct S as (l1 & data & l2 & E & _ & Hd & _).
    rewrite E in H. apply Forall_app in H as [_ H].
    apply Forall_cons in H as [H _]. contradiction.
  - intros cos la lo t H. by apply get_location_name_loop_none.
  - intros cos la lo t E. unfold get_location_name. by rewrite E.
Qed.

(** ** The plain codec keeps the contract *)

Lemma pos_of_bytes_of_pos (p : positive) :
  plain.pos_of_bytes (plain.bytes_of_pos p) = Some p.
Proof. induction p as [p IH|p IH|]; simpl; by rewrite ?IH. Qed.

Lemma plain_load_dump `{Countable A} (x : A) :
  plain.load (plain.dump x) = Some x.
Proof.
  unfold plain.load, plain.dump. simpl.
  rewrite pos_of_bytes_of_pos. simpl. apply decode_encode.
Qed.

Lemma plain_lawful : codecs.lawful plain.codec.
Proof.
  split; simpl; try reflexivity; intros; apply plain_load_dump.
Qed.

(** ** Files *)

Lemma read_all_open_a (p q : string) (fs : FS) :
  read_all p (open_a q fs) = read_all p fs.
Proof.
  unfold open_a, read_all. destruct (files fs !! q) eqn:E; [reflexivity|].
  simpl. destruct (decide (q = p)) as [->|N].
  - by rewrite lookup_insert_eq, E.
  - by rewrite lookup_insert_ne.
Qed.

Lemma read_all_open_w_eq (p : string) (c : list byte) (fs : FS) :
  read_all p (open_w p c fs) = c.
Proof. unfold read_all, open_w. simpl. by rewrite lookup_insert_eq. Qed.

Lemma read_all_open_w_ne (p q : string) (c : list byte) (fs : FS) :
  q ≠ p → read_all p (open_w q c fs) = read_all p fs.
Proof. intros N. unfold read_all, open_w. simpl. by rewrite lookup_insert_ne. Qed.

(** What [Db_init] returns, in terms of the three files it reads: creating
    the directory and the missing files changes no content. *)
Lemma Db_init_result cfg cd (fs : FS) :
  (Db_init cfg cd fs).2 =
  let h := default ∅ (codecs.json_load_hash cd
                        (read_all (constants.hash_db cfg) fs)) in
  let l := default [] (codecs.json_load_location cd
                         (read_all (constants.location_db cfg) fs)) in
  match read_all (constants.phash_db cfg) fs with
  | [] => Return (mkDb h l ∅)
  | _ :: _ =>
      match codecs.pickle_load cd (read_all (constants.phash_db cfg) fs) with
      | Some v => Return (mkDb h l v)
      | None => Raise UnpicklingError
      end
  end.
Proof.
  unfold Db_init, os.path.getsize.
  set (fs1 := if negb (os.path.exists_ _ fs) then _ else fs).
  set (fs2 := if negb (os.path.isfile _ fs1) then _ else fs1).
  set (fs3 := if negb (os.path.isfile _ fs2) then _ else fs2).
  set (fs4 := if negb (os.path.isfile _ fs3) then _ else fs3).
  assert (E1 : ∀ p, read_all p fs1 = read_all p fs).
  { intros p. unfold fs1. by destruct (negb _). }
  clearbody fs1.
  assert (E2 : ∀ p, read_all p fs2 = read_all p fs).
  { intros p. unfold fs2. destruct (negb _); rewrite ?read_all_open_a; apply E1. }
  clearbody fs2.
  assert (E3 : ∀ p, read_all p fs3 = read_all p fs).
  { intros p. unfold fs3. destruct (negb _); rewrite ?read_all_open_a; apply E2. }
  clearbody fs3.
  assert (E4 : ∀ p, read_all p fs4 = read_all p fs).
  { intros p. unfold fs4. destruct (negb _); rewrite ?read_all_open_a; apply E3. }
  clearbody fs4.
  fold (read_all (constants.phash_db cfg) fs4).
  rewrite E2, E3, !E4.
  destruct (read_all (constants.phash_db cfg) fs) as [|b c] eqn:Ep; simpl.
  - by destruct (codecs.json_load_hash cd _), (codecs.json_load_location cd _).
  - by destruct (codecs.json_load_hash cd _), (codecs.json_load_location cd _),
         (codecs.pickle_load cd _).
Qed.


(** C3: a checksum put under [k] and written with [update_hash_db] is read
    back by a store constructed from the same files, provided the checksum
    file and the perceptual-hash file are two different files. *)
Theorem persist_reload_roundtrip cfg cd (k v : string) (write : bool)
    (self : Db) (fs : FS)
    (Hcd : codecs.lawful cd)
    (Hpaths : constants.hash_db cfg ≠ constants.phash_db cfg) :
  let '(self1, fs1) := add_hash cfg cd k v write self fs in
  let fs2 := update_hash_db cfg cd self1 fs1 in
  ∃ self2, (Db_init cfg cd fs2).2 = Return self2 ∧
    get_hash k self2 = Some v ∧ hash_db self2 = hash_db self1.
Proof.
  pose proof (add_hash_self cfg cd k v write self fs) as E.
  destruct (add_hash cfg cd k v write self fs) as [self1 fs1].
  simpl in E. intros fs2. rewrite Db_init_result.
  assert (Rh : read_all (constants.hash_db cfg) fs2
               = codecs.json_dump_hash cd (hash_db self1)).
  { unfold fs2, update_hash_db.
    rewrite read_all_open_w_ne by congruence. apply read_all_open_w_eq. }
  assert (Rp : read_all (constants.phash_db cfg) fs2
               = codecs.pickle_dump cd (phash_db self1)).
  { unfold fs2, update_hash_db. apply read_all_open_w_eq. }
  rewrite Rh, Rp, (codecs.json_hash_roundtrip cd Hcd),
    (codecs.pickle_roundtrip cd Hcd). simpl.
  assert (G : get_hash k (mkDb (hash_db self1) [] ∅) = Some v
              ∧ ∀ l p, get_hash k (mkDb (hash_db self1) l p) = Some v).
  { split; intros; rewrite get_hash_lookup; simpl; subst self1; simpl;
      apply lookup_insert_eq. }
  destruct (codecs.pickle_dump cd (phash_db self1));
    eexists; (split; [reflexivity|]); split; try reflexivity; apply G.
Qed.



Lemma persist_reload_roundtrip_witness :
  let fs2 := update_hash_db cfg0 plain.codec
               (add_hash cfg0 plain.codec "abc" "path1" false
                         db_empty fs_empty).1 fs_empty in
  ∃ self2, (Db_init cfg0 plain.codec fs2).2 = Return self2 ∧
    get_hash "abc" self2 = Some "path1"%string.
Proof.
  pose proof (persist_reload_roundtrip cfg0 plain.codec "abc" "path1" false
                db_empty fs_empty plain_lawful ltac:(discriminate)) as H.
  cbv beta iota delta [add_hash] in H. destruct H as (self2 & E & G & _).
  exists self2. split; assumption.
Defined.

Lemma get_location_coordinates_first_witness :
  get_location_coordinates "A"
    (add_location cfg0 plain.codec 12.5 (-7.25) "A" false
                  db_empty fs_empty).1
  = Some (12.5%float, (-7.25)%float).
Proof.
  apply (proj2 (get_location_coordinates_first "A" db_empty)).
  constructor.
Defined.

Lemma lookup_miss_returns_None_witness :
  get_hash "k" db_AB = None ∧ get_phash "k" db_AB = None ∧
  get_location_coordinates "Z" db_AB = None ∧
  get_location_name cos_series 0 1 50 db_AB = None ∧
  get_location_name cos_series 0 1 50 db_empty = None.
Proof.
  destruct (lookup_miss_returns_None db_AB) as (H1 & H2 & H3 & H4 & _).
  destruct (lookup_miss_returns_None db_empty) as (_ & _ & _ & _ & H5).
  split; [|split; [|split; [|split]]].
  - apply H1. set_solver.
  - apply H2. set_solver.
  - apply H3. repeat constructor; discriminate.
  - apply H4. repeat constructor.
  - apply H5. reflexivity.
Defined.

(** ** The nearest location *)

(** On the equator the cosine is taken at zero only. *)
Lemma distance_equator cos (lo : float) (data : LocationRecord) :
  cos 0%float = 1%float → lat data = 0%float →
  distance cos 0 lo data = distance (λ _, 1%float) 0 lo data.
Proof.
  intros H E. unfold distance. rewrite E.
  change (0.5 * (math.radians 0 + math.radians 0))%float with 0%float.
  by rewrite H.
Qed.

Lemma get_location_name_loop_equator cos (lo t : float)
    (l : list LocationRecord) (last_d : float) (name' : option string) :
  cos 0%float = 1%float → Forall (λ data, lat data = 0%float) l →
  get_location_name_loop cos 0 lo t l last_d name'
  = get_location_name_loop (λ _, 1%float) 0 lo t l last_d name'.
Proof.
  intros H Hl. revert last_d name'.
  induction Hl as [|data l E _ IH]; intros last_d name'; simpl;
    [reflexivity|].
  by rewrite (distance_equator cos lo data H E), IH.
Qed.

(** The records of the nearest-match example, A before B: the lookup
    returns "A". *)
Lemma get_location_name_AB cos :
  cos 0%float = 1%float →
  get_location_name cos 0 0 200 db_AB = Some "A"%string.
Proof.
  intros H. unfold get_location_name.
  rewrite get_location_name_loop_equator
    by (try assumption; by repeat constructor).
  vm_compute. reflexivity.
Qed.

(** C1, where the code departs from it: with A at the query point, C out
    of the 200 m threshold and B about 111 m away, in this order, the
    lookup returns "B" although A is within the threshold and strictly
    nearer: [last_d] holds the distance of the previous record, not the
    smallest distance so far. *)
Theorem get_location_name_not_minimum cos (Hcos : cos 0%float = 1%float) :
  get_location_name cos 0 0 200 db_ACB = Some "B"%string ∧
  (distance cos 0 0 place_A <=? 200)%float = true ∧
  (distance cos 0 0 place_B <=? 200)%float = true ∧
  (distance cos 0 0 place_A <? distance cos 0 0 place_B)%float = true.
Proof.
  unfold get_location_name.
  rewrite get_location_name_loop_equator
    by (try assumption; by repeat constructor).
  rewrite (distance_equator cos 0 place_A Hcos eq_refl).
  rewrite (distance_equator cos 0 place_B Hcos eq_refl).
  vm_compute. repeat split; reflexivity.
Qed.

Lemma get_location_name_not_minimum_witness :
  get_location_name cos_series 0 0 200 db_ACB = Some "B"%string ∧
  (distance cos_series 0 0 place_A <=? 200)%float = true ∧
  (distance cos_series 0 0 place_B <=? 200)%float = true ∧
  (distance cos_series 0 0 place_A <? distance cos_series 0 0 place_B)%float
    = true.
Proof. apply (get_location_name_not_minimum cos_series). reflexivity. Defined.

(** ** The checksum of a file *)















(** ** Backups *)

Lemma append_eq_prefix (a b x y : string) :
  a +:+ x = b +:+ y → (∃ z, a = b +:+ z) ∨ (∃ z, b = a +:+ z).
Proof.
  revert b. induction a as [|c a IH]; intros b E.
  - right. by exists b.
  - destruct b as [|c' b].
    + left. by exists (String c a).
    + simpl in E. injection E as -> E.
      destruct (IH b E) as [[z ->]|[z ->]]; [left|right]; by exists z.
Qed.

Lemma isfile_Some (p : string) (fs : FS) (c : list byte) :
  files fs !! p = Some c → os.path.isfile p fs = true.
Proof. intros E. unfold os.path.isfile. apply bool_decide_eq_true_2. eauto. Qed.

Lemma isfile_None (p : string) (fs : FS) :
  files fs !! p = None → os.path.isfile p fs = false.
Proof.
  intros E. unfold os.path.isfile. apply bool_decide_eq_false_2.
  rewrite E. by intros [? ?].
Qed.

Lemma files_copyfile (src dst : string) (fs : FS) (c : list byte) :
  files fs !! src = Some c →
  files (copyfile src dst fs) = <[dst := c]> (files fs).
Proof. intros E. unfold copyfile, read_all, open_w. simpl. by rewrite E. Qed.

(** The mask has the shape YYYY-MM-DD_HH-MM-SS. *)
Lemma strftime_shape (now : struct_time) :
  strftime now =
  String (digit (tm_year now / 1000)) (String (digit (tm_year now / 100))
  (String (digit (tm_year now / 10)) (String (digit (tm_year now))
  (String "-" (String (digit (tm_mon now / 10)) (String (digit (tm_mon now))
  (String "-" (String (digit (tm_mday now / 10)) (String (digit (tm_mday now))
  (String "_" (String (digit (tm_hour now / 10)) (String (digit (tm_hour now))
  (String "-" (String (digit (tm_min now / 10)) (String (digit (tm_min now))
  (String "-" (String (digit (tm_sec now / 10)) (String (digit (tm_sec now))
  EmptyString))))))))))))))))))
  ∧ String.length (strftime now) = 19%nat.
Proof. split; reflexivity. Qed.

Lemma strftime_noon : strftime noon = "2024-02-29_12-00-07"%string.
Proof. reflexivity. Qed.

(** C9: when both files exist, and neither file name is the other one
    with something appended, [backup_hash_db] copies the checksum file and
    the perceptual-hash file, byte for byte, to their names followed by a
    dash and the mask of the time read for each, changes nothing else, and
    returns the name of the checksum copy. *)
Theorem backup_hash_db_copies cfg (now1 now2 : struct_time) (fs : FS)
    (h p : list byte)
    (Hh : files fs !! constants.hash_db cfg = Some h)
    (Hp : files fs !! constants.phash_db cfg = Some p)
    (Hhp : ∀ z, constants.phash_db cfg ≠ constants.hash_db cfg +:+ z)
    (Hph : ∀ z, constants.hash_db cfg ≠ constants.phash_db cfg +:+ z) :
  let hash_backup := constants.hash_db cfg +:+ "-" +:+ strftime now1 in
  let phash_backup := constants.phash_db cfg +:+ "-" +:+ strftime now2 in
  let '(fs', r) := backup_hash_db cfg now1 now2 fs in
  r = Return hash_backup ∧
  files fs' !! hash_backup = Some h ∧
  files fs' !! phash_backup = Some p ∧
  (∀ q, q ≠ hash_backup → q ≠ phash_backup →
        files fs' !! q = files fs !! q) ∧
  dirs fs' = dirs fs.
Proof.
  intros hb pb.
  assert (N1 : hb ≠ constants.phash_db cfg).
  { intros E. by apply (Hhp ("-" +:+ strftime now1)). }
  assert (N2 : pb ≠ hb).
  { intros E. destruct (append_eq_prefix _ _ _ _ E) as [[z Hz]|[z Hz]].
    - by apply (Hhp z).
    - by apply (Hph z). }
  assert (F1 : files (copyfile (constants.hash_db cfg) hb fs)
               = <[hb := h]> (files fs)) by by apply files_copyfile.
  assert (Hp1 : files (copyfile (constants.hash_db cfg) hb fs)
                !! constants.phash_db cfg = Some p).
  { by rewrite F1, lookup_insert_ne. }
  unfold backup_hash_db. rewrite (isfile_Some _ _ _ Hh).
  fold hb. rewrite (isfile_Some _ _ _ Hp1). fold pb.
  rewrite (files_copyfile _ pb _ _ Hp1), F1.
  split; [reflexivity|]. split; [|split; [|split]].
  - rewrite lookup_insert_ne by exact N2. apply lookup_insert_eq.
  - apply lookup_insert_eq.
  - intros q Q1 Q2. by rewrite !lookup_insert_ne by congruence.
  - reflexivity.
Qed.

Lemma backup_hash_db_copies_witness :
  let '(fs', r) := backup_hash_db cfg0 noon noon fs_both in
  r = Return "/home/u/.elodie/hash.json-2024-02-29_12-00-07"%string ∧
  files fs' !! "/home/u/.elodie/hash.json-2024-02-29_12-00-07"%string
    = Some (bytes_of_string "{}") ∧
  files fs' !! "/home/u/.elodie/phash.pickle-2024-02-29_12-00-07"%string
    = Some (bytes_of_string "pickled").
Proof.
  pose proof (backup_hash_db_copies cfg0 noon noon fs_both
                (bytes_of_string "{}") (bytes_of_string "pickled")
                eq_refl eq_refl
                ltac:(intros z; discriminate)
                ltac:(intros z; discriminate)) as H.
  cbv zeta in H.
  destruct (backup_hash_db cfg0 noon noon fs_both) as [fs' r].
  destruct H as (H1 & H2 & H3 & _). repeat split; assumption.
Defined.

(** C10: without a checksum file the return statement reads the unbound
    local [hash_backup_file_name]: the call raises, after the
    perceptual-hash file, when there is one, has been copied. *)
Theorem backup_hash_db_unbound cfg (now1 now2 : struct_time) (fs : FS)
    (Hh : files fs !! constants.hash_db cfg = None) :
  let '(fs', r) := backup_hash_db cfg now1 now2 fs in
  r = Raise UnboundLocalError ∧
  ∀ p, files fs !! constants.phash_db cfg = Some p →
       files fs' !! (constants.phash_db cfg +:+ "-" +:+ strftime now2)
       = Some p.
Proof.
  unfold backup_hash_db. rewrite (isfile_None _ _ Hh).
  destruct (files fs !! constants.phash_db cfg) as [p|] eqn:Hp.
  - rewrite (isfile_Some _ _ _ Hp).
    split; [reflexivity|]. intros p' [= <-].
    rewrite (files_copyfile _ _ _ _ Hp). apply lookup_insert_eq.
  - rewrite (isfile_None _ _ Hp). split; [reflexivity | discriminate].
Qed.

Lemma backup_hash_db_unbound_witness :
  let '(fs', r) := backup_hash_db cfg0 noon noon fs_phash_only in
  r = Raise UnboundLocalError ∧
  files fs' !! "/home/u/.elodie/phash.pickle-2024-02-29_12-00-07"%string
    = Some (bytes_of_string "pickled").
Proof.
  pose proof (backup_hash_db_unbound cfg0 noon noon fs_phash_only eq_refl)
    as H.
  destruct (backup_hash_db cfg0 noon noon fs_phash_only) as [fs' r].
  destruct H as [H1 H2]. split; [exact H1|]. by apply H2.
Defined.

(** * Further properties of the store *)

(** ** The location scan *)


Lemma get_location_name_loop_sound cos la lo t (l : list LocationRecord)
    (last_d : float) (name' : option string) (n : string) :
  get_location_name_loop cos la lo t l last_d name' = Some n →
  name' = Some n ∨
  ∃ data, data ∈ l ∧ name data = n ∧
    (distance cos la lo data <=? t)%float = true.
Proof.
  revert last_d name'. induction l as [|data l IH]; intros last_d name' H.
  - by left.
  - simpl in H. apply IH in H as [H|(data' & Hin & Hn & Hd)].
    + destruct (distance cos la lo data <=? t)%float eqn:Hle; simpl in H.
      * destruct (distance cos la lo data <? last_d)%float; [|by left].
        right. exists data. injection H as H.
        split; [by left|]. by split.
      * by left.
    + right. exists data'. split; [by right|]. by split.
Qed.

(** X1: a name returned by [get_location_name] is the name of a stored
    record whose distance to the query is within the threshold. *)
Theorem get_location_name_within_threshold cos (la lo t : float)
    (self : Db) (n : string)
    (H : get_location_name cos la lo t self = Some n) :
  ∃ data, data ∈ location_db self ∧ name data = n ∧
    (distance cos la lo data <=? t)%float = true.
Proof.
  apply get_location_name_loop_sound in H as [H|H]; [discriminate | exact H].
Qed.

Lemma get_location_name_within_threshold_witness :
  ∃ data, data ∈ location_db db_ACB ∧ name data = "B"%string ∧
    (distance cos_series 0 0 data <=? 200)%float = true.
Proof.
  apply (get_location_name_within_threshold cos_series 0 0 200 db_ACB "B").
  vm_compute. reflexivity.
Defined.





Lemma get_location_coordinates_loop_app_full (l1 l2 : list LocationRecord)
    (n : string) :
  get_location_coordinates_loop (l1 ++ l2) n
  = match get_location_coordinates_loop l1 n with
    | Some c => Some c
    | None => get_location_coordinates_loop l2 n
    end.
Proof.
  induction l1 as [|data l1 IH]; simpl; [reflexivity|].
  by case_bool_decide.
Qed.

(** X4: [add_location] never changes the coordinates found for a name that
    already had a record; a name without one gets the new coordinates when
    it is the name added, and stays unknown otherwise. *)
Theorem get_location_coordinates_add_location cfg cd (la lo : float)
    (place : string) (write : bool) (self : Db) (fs : FS) (n : string) :
  get_location_coordinates n
    (add_location cfg cd la lo place write self fs).1
  = match get_location_coordinates n self with
    | Some c => Some c
    | None => if bool_decide (place = n) then Some (la, lo) else None
    end.
Proof.
  rewrite add_location_self. unfold get_location_coordinates. simpl.
  by rewrite get_location_coordinates_loop_app_full.
Qed.

(** ** The two maps, key by key *)

(** X5: [add_hash] changes the checksum under its own key and nothing
    else, and [add_phash] the perceptual hash under its own key and
    nothing else: every other key reads as before in both maps, and the
    location list is kept. *)
Theorem add_hash_add_phash_frame cfg cd (k : string) (v : string)
    (ph : ImageHash) (write : bool) (self : Db) (fs : FS) (k' : string) :
  (let self' := (add_hash cfg cd k v write self fs).1 in
   get_hash k' self'
     = (if bool_decide (k' = k) then Some v else get_hash k' self) ∧
   check_hash k' self' = bool_decide (k' = k) || check_hash k' self ∧
   get_phash k' self' = get_phash k' self ∧
   check_phash k' self' = check_phash k' self ∧
   location_db self' = location_db self) ∧
  (let self' := (add_phash cfg cd k ph write self fs).1 in
   get_phash k' self'
     = (if bool_decide (k' = k) then Some ph else get_phash k' self) ∧
   check_phash k' self' = bool_decide (k' = k) || check_phash k' self ∧
   get_hash k' self' = get_hash k' self ∧
   check_hash k' self' = check_hash k' self ∧
   location_db self' = location_db self).
Proof.
  split; cbv zeta.
  - rewrite add_hash_self, !get_hash_lookup, !get_phash_lookup.
    unfold check_hash, check_phash. simpl.
    split; [|split; [|done]].
    + case_bool_decide as E.
      * subst k'. apply lookup_insert_eq.
      * by rewrite lookup_insert_ne.
    + rewrite dom_insert_L. destruct (decide (k' = k)) as [->|N].
      * rewrite bool_decide_eq_true_2 by set_solver.
        by rewrite bool_decide_eq_true_2.
      * rewrite (bool_decide_eq_false_2 (k' = k)) by done. simpl.
        apply bool_decide_ext. set_solver.
  - rewrite add_phash_self, !get_hash_lookup, !get_phash_lookup.
    unfold check_hash, check_phash. simpl.
    split; [|split; [|done]].
    + case_bool_decide as E.
      * subst k'. apply lookup_insert_eq.
      * by rewrite lookup_insert_ne.
    + rewrite dom_insert_L. destruct (decide (k' = k)) as [->|N].
      * rewrite bool_decide_eq_true_2 by set_solver.
        by rewrite bool_decide_eq_true_2.
      * rewrite (bool_decide_eq_false_2 (k' = k)) by done. simpl.
        apply bool_decide_ext. set_solver.
Qed.

(** X6: [all] yields the pair [(k, v)] exactly when [get_hash k] is [v],
    yields no key twice, yields as many pairs as the map has keys, and its
    keys are the keys [check_hash] accepts, which are the keys for which
    [get_hash] returns a value. *)
Theorem all_yields_the_map (self : Db) :
  (∀ k v, (k, v) ∈ all self ↔ get_hash k self = Some v) ∧
  NoDup (all self).*1 ∧
  length (all self) = size (hash_db self) ∧
  (∀ k, check_hash k self = true ↔ k ∈ (all self).*1) ∧
  (∀ k, check_hash k self = true ↔ is_Some (get_hash k self)).
Proof.
  unfold all. split; [|split; [|split; [|split]]].
  - intros k v. rewrite get_hash_lookup. apply elem_of_map_to_list.
  - apply NoDup_fst_map_to_list.
  - apply length_map_to_list.
  - intros k. unfold check_hash. rewrite bool_decide_eq_true, elem_of_dom.
    rewrite list_elem_of_fmap. split.
    + intros [v Hv]. exists (k, v). split; [done|].
      by apply elem_of_map_to_list.
    + intros [[k0 v] [-> Hin]]. exists v. by apply elem_of_map_to_list.
  - intros k. unfold check_hash.
    by rewrite bool_decide_eq_true, elem_of_dom, get_hash_lookup.
Qed.

(** ** What the constructor does to the files *)










(** ** Writing and loading back *)

Lemma read_all_update_hash_db cfg cd (self : Db) (fs : FS) (p : string) :
  read_all p (update_hash_db cfg cd self fs)
  = if decide (constants.phash_db cfg = p)
    then codecs.pickle_dump cd (phash_db self)
    else if decide (constants.hash_db cfg = p)
    then codecs.json_dump_hash cd (hash_db self)
    else read_all p fs.
Proof.
  unfold update_hash_db. case_decide as E1.
  - subst p. apply read_all_open_w_eq.
  - rewrite read_all_open_w_ne by done. case_decide as E2.
    + subst p. apply read_all_open_w_eq.
    + by rewrite read_all_open_w_ne.
Qed.

Lemma read_all_update_location_db cfg cd (self : Db) (fs : FS) (p : string) :
  read_all p (update_location_db cfg cd self fs)
  = if decide (constants.location_db cfg = p)
    then codecs.json_dump_location cd (location_db self)
    else read_all p fs.
Proof.
  unfold update_location_db. case_decide as E.
  - subst p. apply read_all_open_w_eq.
  - by rewrite read_all_open_w_ne.
Qed.

(** X8: a store written out with [update_hash_db] and
    [update_location_db] is the store a later construction loads: the three
    collections come back as they were, when the three files are distinct
    and an empty pickle stands for the empty map only. *)
Theorem store_roundtrip cfg cd (self : Db) (fs : FS)
    (Hcd : codecs.lawful cd)
    (Hpk : codecs.pickle_dump cd (phash_db self) = [] → phash_db self = ∅)
    (Hhl : constants.hash_db cfg ≠ constants.location_db cfg)
    (Hhp : constants.hash_db cfg ≠ constants.phash_db cfg)
    (Hlp : constants.location_db cfg ≠ constants.phash_db cfg) :
  (Db_init cfg cd
     (update_location_db cfg cd self (update_hash_db cfg cd self fs))).2
  = Return self.
Proof.
  rewrite Db_init_result.
  rewrite !read_all_update_location_db, !read_all_update_hash_db.
  rewrite (decide_False (P := constants.location_db cfg
                              = constants.hash_db cfg)) by congruence.
  rewrite (decide_False (P := constants.phash_db cfg
                              = constants.hash_db cfg)) by congruence.
  rewrite (decide_True (P := constants.hash_db cfg
                             = constants.hash_db cfg)) by done.
  rewrite (decide_True (P := constants.location_db cfg
                             = constants.location_db cfg)) by done.
  rewrite (decide_False (P := constants.location_db cfg
                              = constants.phash_db cfg)) by congruence.
  rewrite (decide_True (P := constants.phash_db cfg
                             = constants.phash_db cfg)) by done.
  rewrite (codecs.json_hash_roundtrip cd Hcd),
    (codecs.json_location_roundtrip cd Hcd),
    (codecs.pickle_roundtrip cd Hcd). simpl.
  destruct (codecs.pickle_dump cd (phash_db self)) eqn:E.
  - rewrite <- (Hpk eq_refl). by destruct self.
  - by destruct self.
Qed.

Lemma store_roundtrip_witness :
  (Db_init cfg0 plain.codec
     (update_location_db cfg0 plain.codec db_sample
        (update_hash_db cfg0 plain.codec db_sample fs_empty))).2
  = Return db_sample.
Proof.
  apply (store_roundtrip cfg0 plain.codec db_sample fs_empty plain_lawful);
    discriminate.
Defined.

(** X9: [add_location] with [write] set stores the whole location list,
    the new record last, and nothing else: a later construction loads that
    list, and loads the two hash maps, or fails, exactly as it would have
    before the call, so checksums added without [write] are not stored by
    it. *)
Theorem add_location_write_persists cfg cd (la lo : float) (place : string)
    (self : Db) (fs : FS)
    (Hcd : codecs.lawful cd)
    (Hlh : constants.location_db cfg ≠ constants.hash_db cfg)
    (Hlp : constants.location_db cfg ≠ constants.phash_db cfg) :
  let '(self', fs') := add_location cfg cd la lo place true self fs in
  location_db self' = location_db self ++ [mkLocation la lo place] ∧
  (Db_init cfg cd fs').2
  = match (Db_init cfg cd fs).2 with
    | Return d =>
        Return (mkDb (hash_db d) (location_db self') (phash_db d))
    | Raise e => Raise e
    end.
Proof.
  unfold add_location. cbv zeta. split; [reflexivity|].
  rewrite !Db_init_result, !read_all_update_location_db.
  rewrite (decide_False (P := constants.location_db cfg
                              = constants.hash_db cfg)) by done.
  rewrite (decide_False (P := constants.location_db cfg
                              = constants.phash_db cfg)) by done.
  rewrite (decide_True (P := constants.location_db cfg
                             = constants.location_db cfg)) by done.
  rewrite (codecs.json_location_roundtrip cd Hcd). simpl.
  destruct (read_all (constants.phash_db cfg) fs); [reflexivity|].
  by destruct (codecs.pickle_load cd _).
Qed.

Lemma add_location_write_persists_witness :
  let '(self', fs') :=
    add_location cfg0 plain.codec 12.5 (-7.25) "A" true db_sample fs_empty in
  (Db_init cfg0 plain.codec fs').2
  = Return (mkDb ∅ [place_A; mkLocation 12.5 (-7.25) "A"] ∅).
Proof.
  pose proof (add_location_write_persists cfg0 plain.codec 12.5 (-7.25) "A"
                db_sample fs_empty plain_lawful
                ltac:(discriminate) ltac:(discriminate)) as H.
  destruct (add_location cfg0 plain.codec 12.5 (-7.25) "A" true
              db_sample fs_empty) as [self' fs'].
  destruct H as [H1 H2]. rewrite H2, H1. reflexivity.
Defined.

(** X10: [add_phash] with [write] set stores the checksum map too: a
    later construction loads the checksums held in memory at the call,
    written or not before, and the perceptual-hash map with the new
    entry. *)
Theorem add_phash_write_persists cfg cd (k : string) (v : ImageHash)
    (self : Db) (fs : FS)
    (Hcd : codecs.lawful cd)
    (Hpk : codecs.pickle_dump cd (<[k := v]> (phash_db self)) ≠ [])
    (Hhp : constants.hash_db cfg ≠ constants.phash_db cfg) :
  let '(self', fs') := add_phash cfg cd k v true self fs in
  ∃ d, (Db_init cfg cd fs').2 = Return d ∧
    hash_db d = hash_db self ∧
    phash_db d = <[k := v]> (phash_db self) ∧
    get_phash k d = Some v.
Proof.
  unfold add_phash. cbv zeta.
  rewrite Db_init_result, !read_all_update_hash_db. cbn [hash_db phash_db].
  rewrite (decide_False (P := constants.phash_db cfg
                              = constants.hash_db cfg)) by congruence.
  rewrite (decide_True (P := constants.hash_db cfg
                             = constants.hash_db cfg)) by done.
  rewrite (decide_True (P := constants.phash_db cfg
                             = constants.phash_db cfg)) by done.
  rewrite (codecs.json_hash_roundtrip cd Hcd),
    (codecs.pickle_roundtrip cd Hcd).
  destruct (codecs.pickle_dump cd (<[k := v]> (phash_db self))) eqn:E;
    [contradiction|].
  eexists. split; [reflexivity|]. cbn [hash_db phash_db default].
  split; [reflexivity|]. split; [reflexivity|].
  rewrite get_phash_lookup. cbn [phash_db]. apply lookup_insert_eq.
Qed.

Lemma add_phash_write_persists_witness :
  let '(self', fs') :=
    add_phash cfg0 plain.codec "k" [[true]] true db_sample fs_empty in
  ∃ d, (Db_init cfg0 plain.codec fs').2 = Return d ∧
    get_hash "abc" d = Some "path1"%string ∧
    get_phash "k" d = Some [[true]].
Proof.
  pose proof (add_phash_write_persists cfg0 plain.codec "k" [[true]]
                db_sample fs_empty plain_lawful
                ltac:(discriminate) ltac:(discriminate)) as H.
  destruct (add_phash cfg0 plain.codec "k" [[true]] true
              db_sample fs_empty) as [self' fs'].
  destruct H as (d & H1 & H2 & H3 & H4).
  exists d. split; [exact H1|]. split; [|exact H4].
  rewrite get_hash_lookup, H2. reflexivity.
Defined.

(** X11: [reset_hash_db] alone does not reach the files, so a later
    construction loads what it loaded before; once [update_hash_db] has
    run after it, a later construction gets both maps empty. *)
Theorem reset_then_persist cfg cd (self : Db) (fs : FS)
    (Hcd : codecs.lawful cd)
    (Hhp : constants.hash_db cfg ≠ constants.phash_db cfg) :
  let '(self', fs1) := reset_hash_db self fs in
  Db_init cfg cd fs1 = Db_init cfg cd fs ∧
  ∃ d, (Db_init cfg cd (update_hash_db cfg cd self' fs1)).2 = Return d ∧
    hash_db d = ∅ ∧ phash_db d = ∅ ∧
    all d = [] ∧ ∀ key, check_hash key d = false.
Proof.
  unfold reset_hash_db. split; [reflexivity|].
  rewrite Db_init_result, !read_all_update_hash_db. cbn [hash_db phash_db].
  rewrite (decide_False (P := constants.phash_db cfg
                              = constants.hash_db cfg)) by congruence.
  rewrite (decide_True (P := constants.hash_db cfg
                             = constants.hash_db cfg)) by done.
  rewrite (decide_True (P := constants.phash_db cfg
                             = constants.phash_db cfg)) by done.
  rewrite (codecs.json_hash_roundtrip cd Hcd),
    (codecs.pickle_roundtrip cd Hcd).
  destruct (codecs.pickle_dump cd ∅);
    eexists; (split; [reflexivity|]); cbn [hash_db phash_db default];
    repeat split; reflexivity.
Qed.

Lemma reset_then_persist_witness :
  ∃ d, (Db_init cfg0 plain.codec
          (update_hash_db cfg0 plain.codec
             (reset_hash_db db_sample fs_empty).1
             (reset_hash_db db_sample fs_empty).2)).2 = Return d ∧
    hash_db d = ∅ ∧ phash_db d = ∅.
Proof.
  pose proof (reset_then_persist cfg0 plain.codec db_sample fs_empty
                plain_lawful ltac:(discriminate)) as H.
  cbv beta iota delta [reset_hash_db] in H.
  destruct H as (_ & d & H1 & H2 & H3 & _).
  exists d. split; [exact H1|]. by split.
Defined.

(** ** Block sizes and missing files *)




(** ** Backups, whatever files exist *)

Lemma copyfile_frame (src dst : string) (fs : FS) :
  dirs (copyfile src dst fs) = dirs fs ∧
  ∀ q, q ≠ dst → files (copyfile src dst fs) !! q = files fs !! q.
Proof.
  unfold copyfile, open_w. simpl. split; [reflexivity|].
  intros q Hq. by rewrite lookup_insert_ne.
Qed.

Lemma copyfile_keeps (src dst : string) (fs : FS) (q : string) :
  is_Some (files fs !! q) → is_Some (files (copyfile src dst fs) !! q).
Proof.
  intros H. unfold copyfile, open_w. simpl.
  destruct (decide (dst = q)) as [->|N].
  - rewrite lookup_insert_eq. eauto.
  - by rewrite lookup_insert_ne.
Qed.

(** X13: [backup_hash_db] writes to no path but the two backup names,
    removes no file and no directory, and returns the checksum backup name
    exactly when the checksum file exists; otherwise it raises. *)
Theorem backup_hash_db_frame cfg (now1 now2 : struct_time) (fs : FS) :
  let hash_backup := constants.hash_db cfg +:+ "-" +:+ strftime now1 in
  let phash_backup := constants.phash_db cfg +:+ "-" +:+ strftime now2 in
  let '(fs', r) := backup_hash_db cfg now1 now2 fs in
  dirs fs' = dirs fs ∧
  (∀ q, q ≠ hash_backup → q ≠ phash_backup →
        files fs' !! q = files fs !! q) ∧
  (∀ q, is_Some (files fs !! q) → is_Some (files fs' !! q)) ∧
  r = (if os.path.isfile (constants.hash_db cfg) fs
       then Return hash_backup else Raise UnboundLocalError).
Proof.
  intros hb pb. unfold backup_hash_db. fold hb pb.
  destruct (os.path.isfile (constants.hash_db cfg) fs).
  - destruct (copyfile_frame (constants.hash_db cfg) hb fs) as [D1 F1].
    destruct (os.path.isfile (constants.phash_db cfg)
                (copyfile (constants.hash_db cfg) hb fs)).
    + destruct (copyfile_frame (constants.phash_db cfg) pb
                  (copyfile (constants.hash_db cfg) hb fs)) as [D2 F2].
      split; [by rewrite D2|]. split; [|split; [|reflexivity]].
      * intros q Q1 Q2. by rewrite F2, F1.
      * intros q Hq. by do 2 apply copyfile_keeps.
    + split; [exact D1|]. split; [|split; [|reflexivity]].
      * intros q Q1 _. by apply F1.
      * intros q Hq. by apply copyfile_keeps.
  - destruct (os.path.isfile (constants.phash_db cfg) fs).
    + destruct (copyfile_frame (constants.phash_db cfg) pb fs) as [D2 F2].
      split; [exact D2|]. split; [|split; [|reflexivity]].
      * intros q _ Q2. by apply F2.
      * intros q Hq. by apply copyfile_keeps.
    + by repeat split.
Qed.

(** X14: with the checksum file alone, whose backup name is not the name
    of the perceptual-hash file, [backup_hash_db] makes one copy, of the
    checksum file, and returns its name. *)
Theorem backup_hash_db_hash_only cfg (now1 now2 : struct_time) (fs : FS)
    (h : list byte)
    (Hh : files fs !! constants.hash_db cfg = Some h)
    (Hp : files fs !! constants.phash_db cfg = None)
    (Hne : constants.phash_db cfg
           ≠ constants.hash_db cfg +:+ "-" +:+ strftime now1) :
  let hash_backup := constants.hash_db cfg +:+ "-" +:+ strftime now1 in
  let '(fs', r) := backup_hash_db cfg now1 now2 fs in
  r = Return hash_backup ∧
  files fs' = <[hash_backup := h]> (files fs) ∧
  files fs' !! constants.phash_db cfg = None.
Proof.
  intros hb.
  assert (F1 : files (copyfile (constants.hash_db cfg) hb fs)
               = <[hb := h]> (files fs)) by by apply files_copyfile.
  assert (Hp1 : files (copyfile (constants.hash_db cfg) hb fs)
                !! constants.phash_db cfg = None).
  { by rewrite F1, lookup_insert_ne. }
  unfold backup_hash_db. rewrite (isfile_Some _ _ _ Hh). fold hb.
  rewrite (isfile_None _ _ Hp1). by rewrite F1 in *.
Qed.

Lemma backup_hash_db_hash_only_witness :
  let '(fs', r) := backup_hash_db cfg0 noon noon fs_hash_only in
  r = Return "/home/u/.elodie/hash.json-2024-02-29_12-00-07"%string ∧
  files fs' !! "/home/u/.elodie/hash.json-2024-02-29_12-00-07"%string
    = Some (bytes_of_string "{}").
Proof.
  pose proof (backup_hash_db_hash_only cfg0 noon noon fs_hash_only
                (bytes_of_string "{}") eq_refl eq_refl
                ltac:(discriminate)) as H.
  cbv zeta in H.
  destruct (backup_hash_db cfg0 noon noon fs_hash_only) as [fs' r].
  destruct H as (H1 & H2 & _). split; [exact H1|].
  rewrite H2. apply lookup_insert_eq.
Defined.

(** ** Which files a mutator writes *)

(** X15: without [write] the three mutators leave the files alone; with
    [write], [add_hash] and [add_phash] write the checksum file and the
    perceptual-hash file and no other path, [add_location] writes the
    location file and no other path, and none of them touches the
    directories. *)
Theorem mutators_write_only_their_files cfg cd (k v : string)
    (ph : ImageHash) (la lo : float) (place : string) (write : bool)
    (self : Db) (fs : FS) :
  let written_by_hash (fs' : FS) :=
    dirs fs' = dirs fs ∧
    ∀ p, (write = false ∨
          p ≠ constants.hash_db cfg ∧ p ≠ constants.phash_db cfg) →
         files fs' !! p = files fs !! p in
  written_by_hash (add_hash cfg cd k v write self fs).2 ∧
  written_by_hash (add_phash cfg cd k ph write self fs).2 ∧
  (let fs' := (add_location cfg cd la lo place write self fs).2 in
   dirs fs' = dirs fs ∧
   ∀ p, (write = false ∨ p ≠ constants.location_db cfg) →
        files fs' !! p = files fs !! p).
Proof.
  cbv zeta. unfold add_hash, add_phash, add_location.
  destruct write; simpl.
  - repeat split; intros p [?|H]; try discriminate.
    + destruct H. by rewrite !lookup_insert_ne.
    + destruct H. by rewrite !lookup_insert_ne.
    + by rewrite lookup_insert_ne.
  - by repeat split.
Qed.

(** X16: [update_hash_db] replaces what an earlier [update_hash_db] wrote:
    after two of them the files are those the second one alone would have
    left. *)
Theorem update_hash_db_overwrites cfg cd (self1 self2 : Db) (fs : FS) :
  update_hash_db cfg cd self2 (update_hash_db cfg cd self1 fs)
  = update_hash_db cfg cd self2 fs.
Proof.
  unfold update_hash_db, open_w. simpl. f_equal.
  apply map_eq. intros p.
  destruct (decide (constants.phash_db cfg = p)) as [<-|N1].
  - by rewrite !lookup_insert_eq.
  - rewrite !(lookup_insert_ne _ (constants.phash_db cfg)) by done.
    destruct (decide (constants.hash_db cfg = p)) as [<-|N2].
    + by rewrite !lookup_insert_eq.
    + rewrite !(lookup_insert_ne _ (constants.hash_db cfg)) by done.
      by rewrite !lookup_insert_ne.
Qed.
